(** * Verification of the GF(2^128) multiply-by-public-byte gadget and the
      matrix-vector commitment circuit (src/src/main.rs).

    Words of the circuit are 64-bit values, modelled as [Z] in [0, 2^64).
    The gates of the circuit builder are the external collaborators of the
    program; they are modelled by their documented word semantics:
    shifts and rotations truncate to 64 bits, [select] is driven by the
    most-significant bit of its condition word (MSB-bool convention). *)

From Stdlib Require Import ZArith Bool List Lia Btauto.
Import ListNotations.
Local Open Scope Z_scope.

(** ** Words and the gates of the circuit builder *)

(** [Word::ALL_ONE] *)
Definition ALL_ONE : Z := Z.ones 64.

Definition is_word (w : Z) : Prop := 0 <= w < 2 ^ 64.

(** [add_constant] / [add_constant_64]: a constant wire. *)
Definition add_constant (c : Z) : Z := c.
Definition add_constant_64 (c : Z) : Z := c.

Definition bxor (x y : Z) : Z := Z.lxor x y.
Definition band (x y : Z) : Z := Z.land x y.

(** Logical shifts by a constant; the left shift wraps at 64 bits. *)
Definition shl (x n : Z) : Z := Z.land (Z.shiftl x n) ALL_ONE.
Definition shr (x n : Z) : Z := Z.shiftr x n.

(** Rotate left by a constant [0 <= n < 64]. *)
Definition rotl (x n : Z) : Z :=
  Z.land (Z.lor (Z.shiftl x n) (Z.shiftr x (64 - n))) ALL_ONE.

(** MSB-bool select: [t] when bit 63 of [cond] is set, else [f]. *)
Definition select (cond t f : Z) : Z := if Z.testbit cond 63 then t else f.

(** [extract_byte(x, i)]: byte [i] of [x], in the low 8 bits. *)
Definition extract_byte (x i : Z) : Z := Z.land (Z.shiftr x (8 * i)) 255.

(** ** The 128-bit wire element *)

Record U128 := mkU128 { lo : Z; hi : Z }.

Definition wf (a : U128) : Prop := is_word (lo a) /\ is_word (hi a).

(** [split128(v) = (v as u64, (v >> 64) as u64)] *)
Definition split128 (v : Z) : Z * Z :=
  (v mod 2 ^ 64, Z.shiftr v 64 mod 2 ^ 64).

Definition u128_xor (a c : U128) : U128 :=
  mkU128 (bxor (lo a) (lo c)) (bxor (hi a) (hi c)).

(** Shift left by one in GF(2^128) with GHASH reduction. *)
Definition mul_x (a : U128) : U128 :=
  let lo_sh := shl (lo a) 1 in
  let carry := shr (lo a) 63 in
  let hi_sh := bxor (shl (hi a) 1) carry in
  let cond := rotl (hi a) 0 in
  let all1 := add_constant ALL_ONE in
  let zero := add_constant_64 0 in
  let mask := select cond all1 zero in
  let red := add_constant_64 (Z.of_N 0x87) in
  let red_masked := band red mask in
  mkU128 (bxor lo_sh red_masked) hi_sh.

(** Conditional XOR: if [cond_msb] (MSB-bool) then [acc ^= x]. *)
Definition cxor (acc x : U128) (cond_msb : Z) : U128 :=
  let all1 := add_constant ALL_ONE in
  let zero := add_constant_64 0 in
  let m := select cond_msb all1 zero in
  let xlo := band (lo x) m in
  let xhi := band (hi x) m in
  mkU128 (bxor (lo acc) xlo) (bxor (hi acc) xhi).

(** One iteration [k] of the loop of [gfmul_by_public_byte] on the state
    [(acc, p)]. *)
Definition gfmul_step (byte0 : Z) (st : U128 * U128) (k : nat) : U128 * U128 :=
  let '(acc, p) := st in
  let cond := rotl byte0 (63 - Z.of_nat k) in
  (cxor acc p cond, mul_x p).

(** [a * (public byte in x.lo)]: the loop [for k in 0..8]. *)
Definition gfmul_by_public_byte (a x : U128) : U128 :=
  let byte0 := extract_byte (lo x) 0 in
  let acc := mkU128 (add_constant_64 0) (add_constant_64 0) in
  fst (fold_left (gfmul_step byte0) (seq 0 8) (acc, a)).

(** ** Reference field GF(2^128) = GF(2)[x] / (x^128 + x^7 + x^2 + x + 1)

    An element is the 128-bit integer whose bit [i] is the coefficient of
    [x^i]; addition is XOR.  This is the field [BinaryField128bGhash] the
    host side computes with (external library), given here by its textbook
    definition: carry-less product followed by polynomial long division. *)

Definition ghash_poly : Z := 2 ^ 128 + Z.of_N 0x87.

Definition gf_add (a b : Z) : Z := Z.lxor a b.

(** Carry-less product [sum_{i < 128} b_i * a * x^i]. *)
Definition clmul (a b : Z) : Z :=
  fold_right
    (fun i acc => Z.lxor (if Z.testbit b (Z.of_nat i)
                          then Z.shiftl a (Z.of_nat i) else 0) acc)
    0 (seq 0 128).

(** Long division by [ghash_poly], clearing degrees [128 + n - 1] down
    to [128]. *)
Fixpoint reduce_from (n : nat) (r : Z) : Z :=
  match n with
  | O => r
  | S n' =>
      let r' := if Z.testbit r (128 + Z.of_nat n')
                then Z.lxor r (Z.shiftl ghash_poly (Z.of_nat n')) else r in
      reduce_from n' r'
  end.

Definition gf_reduce (r : Z) : Z := reduce_from 128 r.

Definition gf_mul (a b : Z) : Z := gf_reduce (clmul a b).

(** The field element held by a wire pair. *)
Definition to128 (a : U128) : Z := Z.lor (lo a) (Z.shiftl (hi a) 64).

(** The wire pair filled from a field element ([split128]). *)
Definition fill128 (v : Z) : U128 := mkU128 (fst (split128 v)) (snd (split128 v)).

(** The field element [x] (degree-1 monomial). *)
Definition fx : Z := 2.

(** BitMask: the mask [select cond all1 zero] used by [mul_x] and [cxor]. *)
Definition bitmask (cond : Z) : Z := select cond (add_constant ALL_ONE) (add_constant_64 0).

(** The terms [b_i * a * x^i] of the carry-less product, for [i] in [l]. *)
Definition clmul_terms (a b : Z) (l : list nat) : Z :=
  fold_right
    (fun i acc => Z.lxor (if Z.testbit b (Z.of_nat i)
                          then Z.shiftl a (Z.of_nat i) else 0) acc)
    0 l.

(** ** The matrix-hash relation [H = A . I] ([lattice_circuit])

    Host side: [I = image_bytes.map(|b| F::from(b as u128))], which is the
    byte itself as a field element, and [H[i] = sum_j A[i][j] * I[j]] with
    the field library's operations. *)

Definition host_row (row I : list Z) : Z :=
  fold_left (fun acc '(aij, ij) => gf_add acc (gf_mul aij ij)) (combine row I) 0.

Definition host_H (A : list (list Z)) (I : list Z) : list Z :=
  map (fun row => host_row row I) A.

(** Circuit side: the row accumulator of [lattice_circuit]. *)
Definition circuit_row (a_row : list U128) (x_idx : list U128) : U128 :=
  fold_left (fun acc '(aij, xj) => u128_xor acc (gfmul_by_public_byte aij xj))
            (combine a_row x_idx)
            (mkU128 (add_constant_64 0) (add_constant_64 0)).

(** The two assertions [H[i].lo] and [H[i].hi] of a row. *)
Definition row_asserts_hold (acc h : U128) : bool :=
  (lo acc =? lo h) && (hi acc =? hi h).

(** Local constraint check on the populated assignment.  The intermediate
    wires are derived by evaluating the gates ([populate_wire_witness]),
    which satisfies every gate constraint; what remains to check are the
    equality assertions. *)
Definition verify_constraints (a_idx : list (list U128)) (x_idx h_idx : list U128) : bool :=
  forallb (fun '(row, h) => row_asserts_hold (circuit_row row x_idx) h)
          (combine a_idx h_idx).

(** Witness filling: [A] and [H] through [split128]; [I] as [lo = byte, hi = 0]. *)
Definition fill_A (A : list (list Z)) : list (list U128) := map (map fill128) A.
Definition fill_I (image_bytes : list Z) : list U128 := map (fun b => mkU128 b 0) image_bytes.
Definition fill_H (H : list Z) : list U128 := map fill128 H.

(** Build, fill and locally check the circuit for [A], the message and [H]. *)
Definition lattice_check (A : list (list Z)) (image_bytes H : list Z) : bool :=
  verify_constraints (fill_A A) (fill_I image_bytes) (fill_H H).

Definition in_field (v : Z) : Prop := 0 <= v < 2 ^ 128.
Definition is_byte (b : Z) : Prop := 0 <= b < 256.

(** ** Message wires of the hash circuits ([keccak_circuit], [sha256_circuit])

    The message is packed eight bytes per 64-bit wire:
    [let n_wires = (size + 7) / 8]. *)
Definition message_wire_count (size : nat) : nat := (size + 7) / 8.

(** ** Proof helpers *)

Ltac xor_bits :=
  apply Z.bits_inj'; intros ?i ?Hi; rewrite ?Z.lxor_spec, ?Z.bits_0; btauto.

Ltac ltb_true := rewrite (proj2 (Z.ltb_lt _ _)) by lia.
Ltac ltb_false := rewrite (proj2 (Z.ltb_ge _ _)) by lia.

Example gf_mul_top_by_x : gf_mul (2 ^ 127) fx = 135.
Proof. vm_compute. reflexivity. Qed.

Example gadget_sample :
  to128 (gfmul_by_public_byte (fill128 (2 ^ 127 + 2 ^ 100 + 12345)) (mkU128 203 0))
  = gf_mul (2 ^ 127 + 2 ^ 100 + 12345) 203.
Proof. vm_compute. reflexivity. Qed.

(** ** Bit-level facts about words and gates *)

Lemma testbit_word_high (w i : Z) :
  is_word w -> 64 <= i -> Z.testbit w i = false.
Proof.
  intros Hw Hi. rewrite <- (Z.mod_small w (2 ^ 64)) by exact Hw.
  apply Z.mod_pow2_bits_high. lia.
Qed.

Lemma word_of_bits (w : Z) :
  0 <= w -> (forall i, 64 <= i -> Z.testbit w i = false) -> is_word w.
Proof.
  intros H0 Hb.
  assert (E : w = w mod 2 ^ 64).
  { apply Z.bits_inj'. intros i Hi.
    destruct (Z.lt_ge_cases i 64).
    - rewrite Z.mod_pow2_bits_low by lia. reflexivity.
    - rewrite Z.mod_pow2_bits_high by lia. apply Hb. lia. }
  rewrite E. apply Z.mod_pos_bound. lia.
Qed.

Lemma testbit_ALL_ONE (i : Z) : 0 <= i -> Z.testbit ALL_ONE i = (i <? 64).
Proof. intros Hi. unfold ALL_ONE. apply Z.testbit_ones_nonneg; lia. Qed.

Lemma land_ALL_ONE_word (x : Z) : is_word (Z.land x ALL_ONE).
Proof.
  unfold ALL_ONE. rewrite Z.land_ones by lia. apply Z.mod_pos_bound. lia.
Qed.

Lemma land_ALL_ONE_id (x : Z) : is_word x -> Z.land x ALL_ONE = x.
Proof.
  intros Hx. unfold ALL_ONE. rewrite Z.land_ones by lia. apply Z.mod_small. exact Hx.
Qed.

Lemma bxor_word (x y : Z) : is_word x -> is_word y -> is_word (bxor x y).
Proof.
  intros Hx Hy. apply word_of_bits.
  - unfold bxor. apply Z.lxor_nonneg. unfold is_word in *. lia.
  - intros i Hi. unfold bxor. rewrite Z.lxor_spec.
    rewrite !testbit_word_high by assumption. reflexivity.
Qed.

Lemma band_word_l (x y : Z) : is_word x -> is_word (band x y).
Proof.
  intros Hx. apply word_of_bits.
  - unfold band. apply Z.land_nonneg. unfold is_word in *. lia.
  - intros i Hi. unfold band. rewrite Z.land_spec.
    rewrite testbit_word_high by assumption. reflexivity.
Qed.

Lemma shl_word (x n : Z) : is_word (shl x n).
Proof. apply land_ALL_ONE_word. Qed.

Lemma shr_word (x n : Z) : is_word x -> 0 <= n -> is_word (shr x n).
Proof.
  intros Hx Hn. apply word_of_bits.
  - unfold shr. apply Z.shiftr_nonneg. unfold is_word in *. lia.
  - intros i Hi. unfold shr. rewrite Z.shiftr_spec by lia.
    apply testbit_word_high; [assumption | lia].
Qed.

Lemma rotl_word (x n : Z) : is_word (rotl x n).
Proof. apply land_ALL_ONE_word. Qed.

Lemma extract_byte_word (x : Z) : is_word (extract_byte x 0).
Proof.
  unfold extract_byte. change 255 with (Z.ones 8).
  rewrite Z.land_ones by lia. pose proof (Z.mod_pos_bound (Z.shiftr x (8 * 0)) (2 ^ 8)).
  unfold is_word. lia.
Qed.

Lemma testbit_shl (x n i : Z) :
  0 <= i -> Z.testbit (shl x n) i = (i <? 64) && Z.testbit x (i - n).
Proof.
  intros Hi. unfold shl. rewrite Z.land_spec, Z.shiftl_spec, testbit_ALL_ONE by lia.
  apply andb_comm.
Qed.

Lemma rotl_0 (x : Z) : is_word x -> rotl x 0 = x.
Proof.
  intros Hx. unfold rotl. rewrite Z.shiftl_0_r.
  assert (E : Z.shiftr x (64 - 0) = 0).
  { rewrite Z.shiftr_div_pow2 by lia. apply Z.div_small. exact Hx. }
  rewrite E, Z.lor_0_r. apply land_ALL_ONE_id. exact Hx.
Qed.


Lemma band_bitmask (x c : Z) :
  is_word x -> band x (bitmask c) = if Z.testbit c 63 then x else 0.
Proof.
  intros Hx. unfold bitmask, select, band, add_constant, add_constant_64.
  destruct (Z.testbit c 63).
  - apply land_ALL_ONE_id. exact Hx.
  - apply Z.land_0_r.
Qed.

Lemma wf_u128_xor (a c : U128) : wf a -> wf c -> wf (u128_xor a c).
Proof. intros [? ?] [? ?]. split; simpl; apply bxor_word; assumption. Qed.

Lemma wf_mul_x (a : U128) : wf a -> wf (mul_x a).
Proof.
  intros [Hl Hh]. unfold mul_x. split; cbn [lo hi].
  - apply bxor_word; [apply shl_word |].
    apply band_word_l. unfold is_word, add_constant_64. cbv. split; congruence.
  - apply bxor_word; [apply shl_word | apply shr_word; [exact Hl | lia]].
Qed.

Lemma cxor_spec (acc x : U128) (c : Z) :
  wf x -> cxor acc x c = if Z.testbit c 63 then u128_xor acc x else acc.
Proof.
  intros [Hl Hh]. unfold cxor.
  change (select c (add_constant ALL_ONE) (add_constant_64 0)) with (bitmask c).
  rewrite !band_bitmask by assumption.
  unfold u128_xor, bxor. destruct (Z.testbit c 63).
  - reflexivity.
  - rewrite !Z.lxor_0_r. destruct acc; reflexivity.
Qed.

Lemma wf_cxor (acc x : U128) (c : Z) : wf acc -> wf x -> wf (cxor acc x c).
Proof.
  intros Ha Hx. rewrite cxor_spec by exact Hx.
  destruct (Z.testbit c 63); [apply wf_u128_xor |]; assumption.
Qed.

(** ** From wire pairs to 128-bit field elements *)

Lemma testbit_bounded (p n i : Z) :
  0 <= n < 2 ^ p -> 0 <= p <= i -> Z.testbit n i = false.
Proof.
  intros Hn Hp. rewrite <- (Z.mod_small n (2 ^ p)) by exact Hn.
  apply Z.mod_pow2_bits_high. lia.
Qed.

Lemma testbit_to128 (a : U128) (j : Z) :
  is_word (lo a) ->
  Z.testbit (to128 a) j = if j <? 64 then Z.testbit (lo a) j else Z.testbit (hi a) (j - 64).
Proof.
  intros Hl. unfold to128.
  destruct (Z.ltb_spec j 0).
  - rewrite !Z.testbit_neg_r by lia.
    destruct (Z.ltb_spec j 64); [reflexivity | lia].
  - rewrite Z.lor_spec, Z.shiftl_spec by lia.
    destruct (Z.ltb_spec j 64).
    + rewrite (Z.testbit_neg_r (hi a)) by lia. apply orb_false_r.
    + rewrite testbit_word_high by assumption. reflexivity.
Qed.

Lemma to128_nonneg (a : U128) : wf a -> 0 <= to128 a.
Proof.
  intros [Hl Hh]. unfold to128. apply Z.lor_nonneg. split; [apply Hl |].
  apply Z.shiftl_nonneg. apply Hh.
Qed.

Lemma testbit_to128_high (a : U128) (j : Z) :
  wf a -> 128 <= j -> Z.testbit (to128 a) j = false.
Proof.
  intros [Hl Hh] Hj. rewrite testbit_to128 by exact Hl.
  destruct (Z.ltb_spec j 64); [lia |]. apply testbit_word_high; [exact Hh | lia].
Qed.

Lemma to128_u128_xor (a c : U128) :
  wf a -> wf c -> to128 (u128_xor a c) = Z.lxor (to128 a) (to128 c).
Proof.
  intros [Hal Hah] [Hcl Hch]. apply Z.bits_inj'. intros i Hi.
  rewrite Z.lxor_spec, !testbit_to128 by (simpl; try apply bxor_word; assumption).
  simpl. unfold bxor. destruct (i <? 64); apply Z.lxor_spec.
Qed.

Lemma fill128_to128 (a : U128) : wf a -> fill128 (to128 a) = a.
Proof.
  intros [Hl Hh]. destruct a as [l h]. unfold fill128, split128.
  cbn [lo hi fst snd] in *.
  f_equal; apply Z.bits_inj'; intros i Hi.
  - destruct (Z.ltb_spec i 64).
    + rewrite Z.mod_pow2_bits_low, testbit_to128 by (cbn [lo]; auto).
      destruct (Z.ltb_spec i 64); [reflexivity | lia].
    + rewrite Z.mod_pow2_bits_high by lia. symmetry. apply testbit_word_high; auto.
  - destruct (Z.ltb_spec i 64).
    + rewrite Z.mod_pow2_bits_low, Z.shiftr_spec, testbit_to128 by (cbn [lo]; auto; lia).
      destruct (Z.ltb_spec (i + 64) 64); [lia |]. cbn [hi]. f_equal. lia.
    + rewrite Z.mod_pow2_bits_high by lia. symmetry. apply testbit_word_high; auto.
Qed.

Lemma wf_fill128 (v : Z) : wf (fill128 v).
Proof.
  unfold wf, fill128, split128. cbn [lo hi fst snd].
  split; apply Z.mod_pos_bound; lia.
Qed.

Lemma to128_fill128 (v : Z) : 0 <= v < 2 ^ 128 -> to128 (fill128 v) = v.
Proof.
  intros Hv. apply Z.bits_inj'. intros i Hi.
  rewrite testbit_to128 by apply wf_fill128. unfold fill128, split128. cbn [lo hi fst snd].
  destruct (Z.ltb_spec i 64).
  - apply Z.mod_pow2_bits_low. exact H.
  - destruct (Z.ltb_spec i 128).
    + rewrite Z.mod_pow2_bits_low, Z.shiftr_spec by lia. f_equal. lia.
    + rewrite Z.mod_pow2_bits_high by lia. symmetry.
      apply (testbit_bounded 128); lia.
Qed.

Lemma split128_testbit (v w t : Z) :
  split128 v = split128 w -> 0 <= t < 128 -> Z.testbit v t = Z.testbit w t.
Proof.
  unfold split128. intros E Ht.
  pose proof (f_equal fst E) as El. pose proof (f_equal snd E) as Eh.
  cbn [fst snd] in El, Eh.
  destruct (Z.ltb_spec t 64).
  - rewrite <- (Z.mod_pow2_bits_low v 64 t), <- (Z.mod_pow2_bits_low w 64 t) by lia.
    rewrite El. reflexivity.
  - replace t with ((t - 64) + 64) by lia.
    rewrite <- !Z.shiftr_spec by lia.
    rewrite <- (Z.mod_pow2_bits_low (Z.shiftr v 64) 64 (t - 64)),
            <- (Z.mod_pow2_bits_low (Z.shiftr w 64) 64 (t - 64)) by lia.
    rewrite Eh. reflexivity.
Qed.

(** ** FieldMultiplyByX *)

Lemma is_word_0x87 : is_word (Z.of_N 0x87).
Proof. cbv. split; congruence. Qed.

(** Word-level shape of [mul_x]: shift with carry, conditional [0x87]. *)
Lemma mul_x_words (a : U128) :
  wf a ->
  mul_x a =
  mkU128 (Z.lxor (shl (lo a) 1) (if Z.testbit (hi a) 63 then Z.of_N 0x87 else 0))
         (Z.lxor (shl (hi a) 1) (shr (lo a) 63)).
Proof.
  intros [Hl Hh]. unfold mul_x. rewrite rotl_0 by exact Hh.
  change (select (hi a) (add_constant ALL_ONE) (add_constant_64 0)) with (bitmask (hi a)).
  unfold add_constant_64. rewrite band_bitmask by apply is_word_0x87.
  reflexivity.
Qed.

(** ** The reference reduction *)


Lemma ghash_poly_bound : 0 <= ghash_poly < 2 ^ 129.
Proof. cbv. split; congruence. Qed.

Lemma testbit_ghash_poly_128 : Z.testbit ghash_poly 128 = true.
Proof. vm_compute. reflexivity. Qed.

Lemma testbit_ghash_poly_high (i : Z) : 129 <= i -> Z.testbit ghash_poly i = false.
Proof. intros Hi. apply (testbit_bounded 129); [apply ghash_poly_bound | lia]. Qed.

Lemma testbit_ghash_poly_low (i : Z) :
  i < 128 -> Z.testbit ghash_poly i = Z.testbit (Z.of_N 0x87) i.
Proof.
  intros Hi. destruct (Z.ltb_spec i 0).
  - rewrite !Z.testbit_neg_r by lia. reflexivity.
  - rewrite <- (Z.mod_pow2_bits_low ghash_poly 128 i) by lia. reflexivity.
Qed.

Lemma reduce_from_0 (n : nat) : reduce_from n 0 = 0.
Proof.
  induction n as [| n IH]; [reflexivity |].
  cbn [reduce_from]. rewrite Z.bits_0. exact IH.
Qed.

(** Reduction is GF(2)-linear. *)
Lemma reduce_from_lxor (n : nat) (u v : Z) :
  reduce_from n (Z.lxor u v) = Z.lxor (reduce_from n u) (reduce_from n v).
Proof.
  revert u v. induction n as [| n IH]; intros u v; [reflexivity |].
  cbn [reduce_from]. rewrite Z.lxor_spec.
  destruct (Z.testbit u (128 + Z.of_nat n)), (Z.testbit v (128 + Z.of_nat n));
    cbn [xorb]; rewrite <- IH; f_equal; xor_bits.
Qed.

(** Shifted copies of the modulus reduce to zero. *)
Lemma reduce_from_poly (n j : nat) :
  (j < n)%nat -> reduce_from n (Z.shiftl ghash_poly (Z.of_nat j)) = 0.
Proof.
  induction n as [| n IH]; intros Hj; [lia |].
  cbn [reduce_from]. rewrite Z.shiftl_spec by lia.
  destruct (Nat.eq_dec j n) as [-> | Hne].
  - replace (128 + Z.of_nat n - Z.of_nat n) with 128 by lia.
    rewrite testbit_ghash_poly_128, Z.lxor_nilpotent. apply reduce_from_0.
  - rewrite testbit_ghash_poly_high by lia. apply IH. lia.
Qed.

(** Degrees above [128 + m] are already clear: the extra steps do nothing. *)
Lemma reduce_from_noop (n m : nat) (u : Z) :
  (m <= n)%nat ->
  (forall i, 128 + Z.of_nat m <= i -> Z.testbit u i = false) ->
  reduce_from n u = reduce_from m u.
Proof.
  intros Hmn Hu. induction n as [| n IH].
  - assert (m = 0%nat) by lia. subst. reflexivity.
  - destruct (Nat.eq_dec m (S n)) as [-> | Hne]; [reflexivity |].
    cbn [reduce_from]. rewrite Hu by lia. apply IH. lia.
Qed.

Lemma gf_reduce_lxor (u v : Z) :
  gf_reduce (Z.lxor u v) = Z.lxor (gf_reduce u) (gf_reduce v).
Proof. apply reduce_from_lxor. Qed.

(** Multiplying by [x] commutes with a partial reduction. *)
Lemma gf_reduce_shift_reduce_from (n : nat) (u : Z) :
  (n <= 127)%nat ->
  gf_reduce (Z.shiftl (reduce_from n u) 1) = gf_reduce (Z.shiftl u 1).
Proof.
  revert u. induction n as [| n IH]; intros u Hn; [reflexivity |].
  cbn [reduce_from]. rewrite IH by lia.
  destruct (Z.testbit u (128 + Z.of_nat n)); [| reflexivity].
  rewrite Z.shiftl_lxor, gf_reduce_lxor, Z.shiftl_shiftl by lia.
  replace (Z.of_nat n + 1) with (Z.of_nat (S n)) by lia.
  unfold gf_reduce at 2. rewrite reduce_from_poly by lia. apply Z.lxor_0_r.
Qed.

(** ** FieldMultiplyByX as multiplication by [x] *)

Lemma mul_x_field (a : U128) :
  wf a -> to128 (mul_x a) = gf_reduce (Z.shiftl (to128 a) 1).
Proof.
  intros Hwf. pose proof Hwf as [Hl Hh].
  assert (Hz : gf_reduce (Z.shiftl (to128 a) 1) =
               Z.lxor (Z.shiftl (to128 a) 1)
                      (if Z.testbit (hi a) 63 then ghash_poly else 0)).
  { unfold gf_reduce. rewrite (reduce_from_noop 128 1).
    - cbn [reduce_from]. change (Z.of_nat 0) with 0. rewrite Z.shiftl_0_r, Z.add_0_r.
      rewrite Z.shiftl_spec, testbit_to128 by (auto; lia). cbn -[Z.testbit].
      destruct (Z.testbit (hi a) 63); [reflexivity | symmetry; apply Z.lxor_0_r].
    - lia.
    - intros i Hi. rewrite Z.shiftl_spec by lia. apply testbit_to128_high; [exact Hwf | lia]. }
  rewrite Hz, mul_x_words by exact Hwf.
  pose proof (wf_mul_x a Hwf) as Hw'. rewrite mul_x_words in Hw' by exact Hwf.
  destruct Hw' as [Hl' Hh']. cbn [lo hi] in Hl', Hh'.
  apply Z.bits_inj'. intros i Hi. rewrite testbit_to128 by exact Hl'. cbn [lo hi].
  rewrite (Z.lxor_spec (Z.shiftl _ _)), Z.shiftl_spec by lia.
  destruct (Z.ltb_spec i 64) as [H64 | H64].
  - rewrite Z.lxor_spec, testbit_shl by lia. ltb_true.
    destruct (Z.eq_dec i 0) as [-> | Hi0].
    + rewrite !Z.testbit_neg_r by lia.
      destruct (Z.testbit (hi a) 63); [rewrite testbit_ghash_poly_low by lia |]; reflexivity.
    + rewrite testbit_to128 by exact Hl. ltb_true.
      destruct (Z.testbit (hi a) 63); [rewrite testbit_ghash_poly_low by lia |]; reflexivity.
  - destruct (Z.ltb_spec i 128) as [H128 | H128].
    + assert (HQ : Z.testbit (if Z.testbit (hi a) 63 then ghash_poly else 0) i = false).
      { destruct (Z.testbit (hi a) 63); [| apply Z.bits_0].
        rewrite testbit_ghash_poly_low by lia. apply (testbit_bounded 64); [apply is_word_0x87 | lia]. }
      rewrite HQ, xorb_false_r, Z.lxor_spec, testbit_shl by lia. ltb_true.
      unfold shr. rewrite Z.shiftr_spec by lia. rewrite testbit_to128 by exact Hl.
      destruct (Z.eq_dec i 64) as [-> | Hi64].
      * rewrite Z.testbit_neg_r by lia. reflexivity.
      * ltb_false. rewrite (testbit_word_high (lo a)) by (auto; lia).
        rewrite xorb_false_r, andb_true_l. f_equal. lia.
    + rewrite testbit_word_high by (auto; lia).
      destruct (Z.eq_dec i 128) as [-> | Hi128].
      * rewrite testbit_to128 by exact Hl. cbn -[Z.testbit].
        destruct (Z.testbit (hi a) 63); reflexivity.
      * rewrite testbit_to128_high by (auto; lia).
        destruct (Z.testbit (hi a) 63); [rewrite testbit_ghash_poly_high by lia | rewrite Z.bits_0]; reflexivity.
Qed.

(** ** The double-and-add sweep *)

(** Bit extraction by rotation: bit [k] of [byte0] lands in bit 63. *)
Lemma testbit_rotl_63 (x : Z) (k : Z) :
  is_word x -> 0 <= k < 64 -> Z.testbit (rotl x (63 - k)) 63 = Z.testbit x k.
Proof.
  intros Hx Hk. unfold rotl.
  rewrite Z.land_spec, testbit_ALL_ONE, Z.lor_spec, Z.shiftl_spec, Z.shiftr_spec by lia.
  replace (63 - (63 - k)) with k by lia.
  rewrite (testbit_word_high x (63 + (64 - (63 - k)))) by (auto; lia).
  rewrite orb_false_r. apply andb_true_r.
Qed.

Lemma clmul_clmul_terms (a b : Z) : clmul a b = clmul_terms a b (seq 0 128).
Proof. reflexivity. Qed.

Lemma gf_reduce_0 : gf_reduce 0 = 0.
Proof. apply reduce_from_0. Qed.

Lemma gf_reduce_small (u : Z) : 0 <= u < 2 ^ 128 -> gf_reduce u = u.
Proof.
  intros Hu. unfold gf_reduce. rewrite (reduce_from_noop 128 0); [reflexivity | lia |].
  intros i Hi. apply (testbit_bounded 128); [exact Hu | lia].
Qed.

(** [x^k * a] reduced, then multiplied by [x], is [x^(k+1) * a] reduced. *)
Lemma gf_reduce_shift_step (a : Z) (k : nat) :
  0 <= a < 2 ^ 128 -> (k <= 127)%nat ->
  gf_reduce (Z.shiftl (gf_reduce (Z.shiftl a (Z.of_nat k))) 1)
  = gf_reduce (Z.shiftl a (Z.of_nat (S k))).
Proof.
  intros Ha Hk.
  assert (E : gf_reduce (Z.shiftl a (Z.of_nat k)) = reduce_from k (Z.shiftl a (Z.of_nat k))).
  { unfold gf_reduce. apply reduce_from_noop; [lia |].
    intros i Hi. rewrite Z.shiftl_spec by lia. apply (testbit_bounded 128); [exact Ha | lia]. }
  rewrite E, gf_reduce_shift_reduce_from, Z.shiftl_shiftl by lia.
  replace (Z.of_nat k + 1) with (Z.of_nat (S k)) by lia. reflexivity.
Qed.

Lemma gfmul_loop (byte0 a : Z) (f k : nat) (acc p : U128) :
  is_word byte0 -> 0 <= a < 2 ^ 128 -> (k + f <= 8)%nat ->
  wf acc -> wf p -> to128 p = gf_reduce (Z.shiftl a (Z.of_nat k)) ->
  let r := fst (fold_left (gfmul_step byte0) (seq k f) (acc, p)) in
  wf r /\ to128 r = Z.lxor (to128 acc) (gf_reduce (clmul_terms a byte0 (seq k f))).
Proof.
  intros Hb Ha. revert k acc p.
  induction f as [| f IH]; intros k acc p Hkf Hacc Hp Hpv; cbn zeta.
  - split; [exact Hacc |]. cbn [seq fold_left fst clmul_terms fold_right].
    rewrite gf_reduce_0. symmetry. apply Z.lxor_0_r.
  - cbn [seq fold_left gfmul_step].
    rewrite cxor_spec by exact Hp. rewrite testbit_rotl_63 by (auto; lia).
    assert (Hacc' : wf (if Z.testbit byte0 (Z.of_nat k) then u128_xor acc p else acc)).
    { destruct (Z.testbit byte0 (Z.of_nat k)); [apply wf_u128_xor |]; assumption. }
    assert (Hp' : to128 (mul_x p) = gf_reduce (Z.shiftl a (Z.of_nat (S k)))).
    { rewrite mul_x_field by exact Hp. rewrite Hpv. apply gf_reduce_shift_step; [exact Ha | lia]. }
    destruct (IH (S k) _ (mul_x p) ltac:(lia) Hacc' (wf_mul_x p Hp) Hp') as [Hwf Hv].
    split; [exact Hwf |]. rewrite Hv.
    cbn [clmul_terms fold_right]. fold (clmul_terms a byte0 (seq (S k) f)).
    rewrite gf_reduce_lxor.
    destruct (Z.testbit byte0 (Z.of_nat k)).
    + rewrite to128_u128_xor, Hpv by assumption. apply Z.lxor_assoc.
    + rewrite gf_reduce_0, Z.lxor_0_l. reflexivity.
Qed.

Lemma to128_bound (a : U128) : wf a -> in_field (to128 a).
Proof.
  intros Hwf. pose proof (to128_nonneg a Hwf) as H0.
  assert (E : to128 a = to128 a mod 2 ^ 128).
  { apply Z.bits_inj'. intros i Hi. destruct (Z.ltb_spec i 128).
    - rewrite Z.mod_pow2_bits_low by lia. reflexivity.
    - rewrite Z.mod_pow2_bits_high by lia. apply testbit_to128_high; [exact Hwf | lia]. }
  unfold in_field. rewrite E. apply Z.mod_pos_bound. lia.
Qed.

Lemma to128_inj (a c : U128) : wf a -> wf c -> to128 a = to128 c -> a = c.
Proof.
  intros Ha Hc E. rewrite <- (fill128_to128 a Ha), <- (fill128_to128 c Hc), E. reflexivity.
Qed.

Lemma extract_byte_mod (v : Z) : extract_byte v 0 = v mod 256.
Proof.
  unfold extract_byte. rewrite Z.mul_0_r, Z.shiftr_0_r.
  change 255 with (Z.ones 8). apply Z.land_ones. lia.
Qed.

Lemma clmul_terms_zero (a b : Z) (l : list nat) :
  (forall i, In i l -> Z.testbit b (Z.of_nat i) = false) -> clmul_terms a b l = 0.
Proof.
  induction l as [| i l IH]; intros Hl; [reflexivity |].
  cbn [clmul_terms fold_right]. fold (clmul_terms a b l).
  rewrite Hl by (left; reflexivity). rewrite IH by (intros j Hj; apply Hl; right; exact Hj).
  reflexivity.
Qed.

(** For a byte multiplier only the terms of degree below 8 remain. *)
Lemma clmul_byte (a b : Z) : is_byte b -> clmul a b = clmul_terms a b (seq 0 8).
Proof.
  intros Hb. rewrite clmul_clmul_terms.
  change (seq 0 128) with (seq 0 8 ++ seq 8 120).
  unfold clmul_terms at 1. rewrite fold_right_app.
  fold (clmul_terms a b (seq 8 120)). rewrite clmul_terms_zero.
  - reflexivity.
  - intros i Hi. apply in_seq in Hi. apply (testbit_bounded 8); [exact Hb | lia].
Qed.

Lemma clmul_terms_lxor (a1 a2 b : Z) (l : list nat) :
  clmul_terms (Z.lxor a1 a2) b l = Z.lxor (clmul_terms a1 b l) (clmul_terms a2 b l).
Proof.
  induction l as [| i l IH]; [reflexivity |].
  cbn [clmul_terms fold_right]. fold (clmul_terms (Z.lxor a1 a2) b l).
  fold (clmul_terms a1 b l). fold (clmul_terms a2 b l). rewrite IH.
  destruct (Z.testbit b (Z.of_nat i)); rewrite ?Z.shiftl_lxor; xor_bits.
Qed.

Lemma gf_mul_lxor_l (a1 a2 b : Z) :
  gf_mul (Z.lxor a1 a2) b = Z.lxor (gf_mul a1 b) (gf_mul a2 b).
Proof.
  unfold gf_mul. rewrite !clmul_clmul_terms, clmul_terms_lxor. apply gf_reduce_lxor.
Qed.

(** The gadget computes [a * byte0] where [byte0] is the low byte of [x.lo]. *)
Lemma gfmul_by_public_byte_field (a x : U128) :
  wf a ->
  wf (gfmul_by_public_byte a x) /\
  to128 (gfmul_by_public_byte a x) = gf_mul (to128 a) (extract_byte (lo x) 0).
Proof.
  intros Ha. unfold gfmul_by_public_byte.
  pose proof (to128_bound a Ha) as Hb.
  assert (Hacc : wf (mkU128 (add_constant_64 0) (add_constant_64 0))).
  { unfold wf, is_word, add_constant_64; cbn [lo hi]; lia. }
  assert (Hp : to128 a = gf_reduce (Z.shiftl (to128 a) (Z.of_nat 0))).
  { rewrite Z.shiftl_0_r, gf_reduce_small by exact Hb. reflexivity. }
  destruct (gfmul_loop (extract_byte (lo x) 0) (to128 a) 8 0 _ a
              (extract_byte_word (lo x)) Hb ltac:(lia) Hacc Ha Hp) as [Hw Hv].
  split; [exact Hw |]. rewrite Hv.
  unfold gf_mul. rewrite clmul_byte.
  - change (to128 (mkU128 (add_constant_64 0) (add_constant_64 0))) with 0.
    apply Z.lxor_0_l.
  - rewrite extract_byte_mod. apply Z.mod_pos_bound. lia.
Qed.

(** ** The matrix-hash circuit *)

Lemma gfmul_fill_byte (a b : Z) :
  in_field a -> is_byte b ->
  wf (gfmul_by_public_byte (fill128 a) (mkU128 b 0)) /\
  to128 (gfmul_by_public_byte (fill128 a) (mkU128 b 0)) = gf_mul a b.
Proof.
  intros Ha Hb.
  destruct (gfmul_by_public_byte_field (fill128 a) (mkU128 b 0) (wf_fill128 a)) as [Hw Hv].
  split; [exact Hw |]. rewrite Hv, to128_fill128 by exact Ha.
  cbn [lo]. rewrite extract_byte_mod, Z.mod_small by exact Hb. reflexivity.
Qed.

Lemma circuit_row_fold (row bytes : list Z) (acc : U128) (acc_h : Z) :
  Forall in_field row -> Forall is_byte bytes -> wf acc -> to128 acc = acc_h ->
  let r := fold_left (fun acc '(aij, xj) => u128_xor acc (gfmul_by_public_byte aij xj))
                     (combine (map fill128 row) (fill_I bytes)) acc in
  wf r /\
  to128 r = fold_left (fun acc '(aij, ij) => gf_add acc (gf_mul aij ij)) (combine row bytes) acc_h.
Proof.
  revert bytes acc acc_h.
  induction row as [| a row IH]; intros bytes acc acc_h Hrow Hbytes Hacc Hv; cbn zeta.
  - split; assumption.
  - destruct bytes as [| b bytes]; [split; assumption |].
    inversion Hrow as [| ? ? Ha Hrow']; subst. inversion Hbytes as [| ? ? Hb Hbytes']; subst.
    cbn [map fill_I combine fold_left]. fold (fill_I bytes).
    destruct (gfmul_fill_byte a b Ha Hb) as [Hw Hm].
    apply IH; [assumption | assumption | apply wf_u128_xor; assumption |].
    rewrite to128_u128_xor, Hm by assumption. reflexivity.
Qed.

Lemma circuit_row_host (row bytes : list Z) :
  Forall in_field row -> Forall is_byte bytes ->
  wf (circuit_row (map fill128 row) (fill_I bytes)) /\
  to128 (circuit_row (map fill128 row) (fill_I bytes)) = host_row row bytes.
Proof.
  intros Hrow Hbytes. apply (circuit_row_fold row bytes _ 0); try assumption.
  - unfold wf, is_word, add_constant_64. cbn [lo hi]. lia.
  - reflexivity.
Qed.

Lemma circuit_row_fill (row bytes : list Z) :
  Forall in_field row -> Forall is_byte bytes ->
  circuit_row (map fill128 row) (fill_I bytes) = fill128 (host_row row bytes).
Proof.
  intros Hrow Hbytes. destruct (circuit_row_host row bytes Hrow Hbytes) as [Hw Hv].
  rewrite <- Hv. symmetry. apply fill128_to128. exact Hw.
Qed.

Lemma row_asserts_hold_iff (c d : U128) : row_asserts_hold c d = true <-> c = d.
Proof.
  destruct c as [cl ch], d as [dl dh]. unfold row_asserts_hold. cbn [lo hi].
  rewrite andb_true_iff, !Z.eqb_eq. split.
  - intros [-> ->]. reflexivity.
  - intros E. injection E as -> ->. split; reflexivity.
Qed.

Lemma fill128_eq_iff (v w : Z) : fill128 v = fill128 w <-> split128 v = split128 w.
Proof.
  unfold fill128. destruct (split128 v) as [v1 v2], (split128 w) as [w1 w2].
  cbn [fst snd]. split.
  - intros E. injection E as -> ->. reflexivity.
  - intros E. injection E as -> ->. reflexivity.
Qed.

(** The populated assignment passes the local check exactly when every
    [H[i]] agrees, limb by limb, with [sum_j A[i][j] * I[j]]. *)
Lemma lattice_check_iff (A : list (list Z)) (bytes H : list Z) :
  length H = length A -> Forall (Forall in_field) A -> Forall is_byte bytes ->
  lattice_check A bytes H = true <->
  Forall2 (fun h v => split128 h = split128 v) H (host_H A bytes).
Proof.
  intros Hlen HA Hbytes. revert H Hlen.
  induction A as [| row A IH]; intros H Hlen; destruct H as [| h H]; cbn in Hlen; try lia.
  - split; intros; [constructor | reflexivity].
  - inversion HA as [| ? ? Hrow HA']; subst.
    unfold lattice_check, verify_constraints, fill_A, fill_H in *.
    cbn [map combine forallb host_H]. fold (host_H A bytes).
    rewrite andb_true_iff, IH by (auto; lia).
    rewrite row_asserts_hold_iff, circuit_row_fill by assumption.
    rewrite fill128_eq_iff. split.
    + intros [E HF]. constructor; [symmetry; exact E | exact HF].
    + intros HF. inversion HF; subst. split; [symmetry |]; assumption.
Qed.

Lemma Forall2_singleton_inv {X Y : Type} (R : X -> Y -> Prop) (x : X) (y : Y) :
  Forall2 R [x] [y] -> R x y.
Proof. intros H. inversion H. assumption. Qed.

Lemma Forall2_split128_refl (l : list Z) : Forall2 (fun h v => split128 h = split128 v) l l.
Proof. induction l; constructor; auto. Qed.

Lemma gf_mul_fx (z : Z) : gf_mul z fx = gf_reduce (Z.shiftl z 1).
Proof.
  unfold gf_mul. rewrite clmul_byte by (unfold is_byte, fx; lia).
  unfold fx. cbn [clmul_terms fold_right seq].
  cbn -[Z.shiftl Z.lxor gf_reduce]. rewrite !Z.lxor_0_r. reflexivity.
Qed.

Lemma testbit_extract_byte (l k : Z) :
  k < 8 -> Z.testbit (extract_byte l 0) k = Z.testbit l k.
Proof.
  intros Hk. rewrite extract_byte_mod. destruct (Z.ltb_spec k 0).
  - rewrite !Z.testbit_neg_r by lia. reflexivity.
  - change 256 with (2 ^ 8). apply Z.mod_pow2_bits_low. exact Hk.
Qed.

(** * Claims *)

(** C1: for a field element [a = (lo, hi)] and a byte [b], the gadget on
    the public operand [(lo = b, hi = 0)] returns the GF(2^128) product
    [a * b], the byte read as the polynomial [sum_k bit_k x^k]. *)
Theorem gfmul_by_public_byte_correct (a : U128) (b : Z) :
  wf a -> is_byte b ->
  to128 (gfmul_by_public_byte a (mkU128 b 0)) = gf_mul (to128 a) b.
Proof.
  intros Ha Hb. destruct (gfmul_by_public_byte_field a (mkU128 b 0) Ha) as [_ Hv].
  rewrite Hv. cbn [lo]. rewrite extract_byte_mod, Z.mod_small by exact Hb. reflexivity.
Qed.

Lemma gfmul_by_public_byte_correct_witness :
  wf (mkU128 5 7) /\ is_byte 203 /\
  to128 (gfmul_by_public_byte (mkU128 5 7) (mkU128 203 0)) = gf_mul (to128 (mkU128 5 7)) 203.
Proof.
  refine (conj _ (conj _ (gfmul_by_public_byte_correct (mkU128 5 7) 203 _ _)));
    unfold wf, is_word, is_byte; simpl; lia.
Defined.

(** C2: for [m = n = 1], the honestly populated circuit passes the local
    constraint check, and flipping any bit [t] of [H0] makes it fail; in
    general the check passes exactly when every [H[i]] equals
    [XOR_j A[i][j] * I[j]] in both limbs. *)
Theorem lattice_local_check_m1_n1 (A00 I0 t : Z) :
  in_field A00 -> is_byte I0 -> 0 <= t < 128 ->
  lattice_check [[A00]] [I0] [gf_mul A00 I0] = true /\
  lattice_check [[A00]] [I0] [Z.lxor (gf_mul A00 I0) (2 ^ t)] = false /\
  (forall A bytes H, length H = length A ->
     Forall (Forall in_field) A -> Forall is_byte bytes ->
     lattice_check A bytes H = true <->
     Forall2 (fun h v => split128 h = split128 v) H (host_H A bytes)).
Proof.
  intros HA HI Ht.
  assert (Hhost : host_H [[A00]] [I0] = [gf_mul A00 I0]).
  { unfold host_H, host_row. cbn [map combine fold_left]. unfold gf_add.
    rewrite Z.lxor_0_l. reflexivity. }
  assert (HAf : Forall (Forall in_field) [[A00]]).
  { apply Forall_cons; [apply Forall_cons; [exact HA | apply Forall_nil] | apply Forall_nil]. }
  assert (HIf : Forall is_byte [I0]) by (apply Forall_cons; [exact HI | apply Forall_nil]).
  split; [| split].
  - apply lattice_check_iff; [reflexivity | exact HAf | exact HIf |].
    rewrite Hhost. apply Forall2_split128_refl.
  - destruct (lattice_check [[A00]] [I0] [Z.lxor (gf_mul A00 I0) (2 ^ t)]) eqn:E;
      [exfalso | reflexivity].
    apply lattice_check_iff in E; [| reflexivity | exact HAf | exact HIf].
    rewrite Hhost in E. apply Forall2_singleton_inv in E as Hs.
    pose proof (split128_testbit _ _ t Hs Ht) as Hb.
    rewrite Z.lxor_spec, Z.pow2_bits_true in Hb by lia.
    destruct (Z.testbit (gf_mul A00 I0) t); discriminate.
  - intros A bytes H Hlen HAs Hbs. apply lattice_check_iff; assumption.
Qed.

Lemma lattice_local_check_m1_n1_witness :
  in_field 5 /\ is_byte 3 /\ 0 <= 0 < 128 /\
  lattice_check [[5]] [3] [gf_mul 5 3] = true /\
  lattice_check [[5]] [3] [Z.lxor (gf_mul 5 3) (2 ^ 0)] = false /\
  (forall A bytes H, length H = length A ->
     Forall (Forall in_field) A -> Forall is_byte bytes ->
     lattice_check A bytes H = true <->
     Forall2 (fun h v => split128 h = split128 v) H (host_H A bytes)).
Proof.
  refine (conj _ (conj _ (conj _ (lattice_local_check_m1_n1 5 3 0 _ _ _))));
    unfold in_field, is_byte; lia.
Defined.

(** C3: [mul_x] shifts the 128-bit value left by one with the carry from
    [lo] bit 63 into [hi] bit 0, XORs [0x87] into the low limb exactly when
    bit 127 was set, and so computes [a * x] in GF(2^128). *)
Theorem mul_x_correct (a : U128) :
  wf a ->
  mul_x a =
  mkU128 (Z.lxor (shl (lo a) 1) (if Z.testbit (hi a) 63 then Z.of_N 0x87 else 0))
         (Z.lxor (shl (hi a) 1) (shr (lo a) 63)) /\
  to128 (mul_x a) = gf_mul (to128 a) fx.
Proof.
  intros Ha. split.
  - apply mul_x_words. exact Ha.
  - rewrite gf_mul_fx. apply mul_x_field. exact Ha.
Qed.

Lemma mul_x_correct_witness :
  wf (mkU128 3 (2 ^ 63)) /\
  mul_x (mkU128 3 (2 ^ 63)) =
  mkU128 (Z.lxor (shl (lo (mkU128 3 (2 ^ 63))) 1)
                 (if Z.testbit (hi (mkU128 3 (2 ^ 63))) 63 then Z.of_N 0x87 else 0))
         (Z.lxor (shl (hi (mkU128 3 (2 ^ 63))) 1) (shr (lo (mkU128 3 (2 ^ 63))) 63)) /\
  to128 (mul_x (mkU128 3 (2 ^ 63))) = gf_mul (to128 (mkU128 3 (2 ^ 63))) fx.
Proof.
  refine (conj _ (mul_x_correct (mkU128 3 (2 ^ 63)) _)); unfold wf, is_word; simpl; lia.
Defined.

(** C4: the host-side [H = A . I] computed with the field operations agrees
    with the row accumulators the circuit builds from the same [A] and [I]
    (as field elements and as the filled wire pairs), so the honest witness
    satisfies every [H[i]] assertion. *)
Theorem host_H_agrees_with_circuit (A : list (list Z)) (bytes : list Z) :
  Forall (Forall in_field) A -> Forall is_byte bytes ->
  map (fun row => to128 (circuit_row (map fill128 row) (fill_I bytes))) A = host_H A bytes /\
  map (fun row => circuit_row (map fill128 row) (fill_I bytes)) A = fill_H (host_H A bytes) /\
  lattice_check A bytes (host_H A bytes) = true.
Proof.
  intros HA Hbytes. split; [| split].
  - unfold host_H. apply map_ext_in. intros row Hrow.
    apply circuit_row_host; [| exact Hbytes].
    rewrite Forall_forall in HA. apply HA. exact Hrow.
  - unfold fill_H, host_H. rewrite map_map. apply map_ext_in. intros row Hrow.
    apply circuit_row_fill; [| exact Hbytes].
    rewrite Forall_forall in HA. apply HA. exact Hrow.
  - apply lattice_check_iff; [| exact HA | exact Hbytes | apply Forall2_split128_refl].
    unfold host_H. apply length_map.
Qed.

Lemma host_H_agrees_with_circuit_witness :
  Forall (Forall in_field) [[5; 2 ^ 100]; [7; 9]] /\ Forall is_byte [3; 255] /\
  map (fun row => to128 (circuit_row (map fill128 row) (fill_I [3; 255])))
      [[5; 2 ^ 100]; [7; 9]] = host_H [[5; 2 ^ 100]; [7; 9]] [3; 255] /\
  map (fun row => circuit_row (map fill128 row) (fill_I [3; 255])) [[5; 2 ^ 100]; [7; 9]]
  = fill_H (host_H [[5; 2 ^ 100]; [7; 9]] [3; 255]) /\
  lattice_check [[5; 2 ^ 100]; [7; 9]] [3; 255] (host_H [[5; 2 ^ 100]; [7; 9]] [3; 255]) = true.
Proof.
  assert (HA : Forall (Forall in_field) [[5; 2 ^ 100]; [7; 9]]).
  { repeat apply Forall_cons; try apply Forall_nil; unfold in_field; lia. }
  assert (HB : Forall is_byte [3; 255]).
  { repeat apply Forall_cons; try apply Forall_nil; unfold is_byte; lia. }
  exact (conj HA (conj HB (host_H_agrees_with_circuit _ _ HA HB))).
Defined.

(** C5: the gadget distributes over field addition (limb-wise XOR) in its
    secret operand. *)
Theorem gfmul_by_public_byte_distributes (a1 a2 : U128) (b : Z) :
  wf a1 -> wf a2 -> is_byte b ->
  gfmul_by_public_byte (u128_xor a1 a2) (mkU128 b 0) =
  u128_xor (gfmul_by_public_byte a1 (mkU128 b 0)) (gfmul_by_public_byte a2 (mkU128 b 0)).
Proof.
  intros H1 H2 Hb.
  destruct (gfmul_by_public_byte_field (u128_xor a1 a2) (mkU128 b 0) (wf_u128_xor _ _ H1 H2))
    as [Hw Hv].
  destruct (gfmul_by_public_byte_field a1 (mkU128 b 0) H1) as [Hw1 Hv1].
  destruct (gfmul_by_public_byte_field a2 (mkU128 b 0) H2) as [Hw2 Hv2].
  apply to128_inj; [exact Hw | apply wf_u128_xor; assumption |].
  rewrite Hv, (to128_u128_xor a1 a2) by assumption.
  rewrite to128_u128_xor by assumption. rewrite Hv1, Hv2.
  apply gf_mul_lxor_l.
Qed.

Lemma gfmul_by_public_byte_distributes_witness :
  wf (mkU128 5 7) /\ wf (mkU128 (2 ^ 63) 1) /\ is_byte 77 /\
  gfmul_by_public_byte (u128_xor (mkU128 5 7) (mkU128 (2 ^ 63) 1)) (mkU128 77 0) =
  u128_xor (gfmul_by_public_byte (mkU128 5 7) (mkU128 77 0))
           (gfmul_by_public_byte (mkU128 (2 ^ 63) 1) (mkU128 77 0)).
Proof.
  refine (conj _ (conj _ (conj _ (gfmul_by_public_byte_distributes
                                     (mkU128 5 7) (mkU128 (2 ^ 63) 1) 77 _ _ _))));
    unfold wf, is_word, is_byte; simpl; lia.
Defined.

(** C6: the BitMask pattern [select cond ALL_ONE 0] is all-ones exactly when
    bit 63 of the condition word is set and zero otherwise: clearing every
    other bit of the condition leaves the mask unchanged. *)
Theorem bitmask_msb (c : Z) :
  bitmask c = (if Z.testbit c 63 then ALL_ONE else 0) /\
  bitmask c = bitmask (Z.land c (Z.shiftl 1 63)).
Proof.
  split.
  - reflexivity.
  - unfold bitmask, select. rewrite Z.land_spec, Z.shiftl_spec by lia.
    change (Z.testbit 1 (63 - 63)) with true. rewrite andb_true_r. reflexivity.
Qed.

(** C7: [cxor] returns [acc XOR x] when the condition is true (MSB set)
    and [acc] itself, both limbs unchanged, otherwise. *)
Theorem cxor_correct (acc x : U128) (c : Z) :
  wf x -> cxor acc x c = if Z.testbit c 63 then u128_xor acc x else acc.
Proof. apply cxor_spec. Qed.

Lemma cxor_correct_witness :
  wf (mkU128 9 4) /\
  cxor (mkU128 1 2) (mkU128 9 4) (2 ^ 63) =
  (if Z.testbit (2 ^ 63) 63 then u128_xor (mkU128 1 2) (mkU128 9 4) else mkU128 1 2).
Proof.
  refine (conj _ (cxor_correct (mkU128 1 2) (mkU128 9 4) (2 ^ 63) _));
    unfold wf, is_word; simpl; lia.
Defined.

(** C8: in iteration [k] of the sweep the condition word is the byte word
    rotated left by [63 - k]; its bit 63 is bit [k] of the byte, so the
    iteration accumulates [p] exactly when that bit is 1. *)
Theorem gfmul_bit_extraction (l : Z) (k : nat) (acc p : U128) :
  (k < 8)%nat -> wf p ->
  Z.testbit (rotl (extract_byte l 0) (63 - Z.of_nat k)) 63 = Z.testbit l (Z.of_nat k) /\
  gfmul_step (extract_byte l 0) (acc, p) k =
  (if Z.testbit l (Z.of_nat k) then u128_xor acc p else acc, mul_x p).
Proof.
  intros Hk Hp.
  assert (E : Z.testbit (rotl (extract_byte l 0) (63 - Z.of_nat k)) 63
              = Z.testbit l (Z.of_nat k)).
  { rewrite testbit_rotl_63 by (try apply extract_byte_word; lia).
    apply testbit_extract_byte. lia. }
  split; [exact E |].
  cbn [gfmul_step]. rewrite cxor_spec, E by exact Hp. reflexivity.
Qed.

Lemma gfmul_bit_extraction_witness :
  (3 < 8)%nat /\ wf (mkU128 11 13) /\
  Z.testbit (rotl (extract_byte 200 0) (63 - Z.of_nat 3)) 63 = Z.testbit 200 (Z.of_nat 3) /\
  gfmul_step (extract_byte 200 0) (mkU128 1 1, mkU128 11 13) 3 =
  (if Z.testbit 200 (Z.of_nat 3) then u128_xor (mkU128 1 1) (mkU128 11 13) else mkU128 1 1,
   mul_x (mkU128 11 13)).
Proof.
  refine (conj _ (conj _ (gfmul_bit_extraction 200 3 (mkU128 1 1) (mkU128 11 13) _ _)));
    unfold wf, is_word; simpl; lia.
Defined.

(** C9: for any public operand, also with a non-zero high limb, the gadget
    yields exactly one result, and that result is a pair of 64-bit words. *)
Theorem gfmul_by_public_byte_total (a x : U128) :
  wf a -> exists! r, gfmul_by_public_byte a x = r /\ wf r.
Proof.
  intros Ha. exists (gfmul_by_public_byte a x). split.
  - split; [reflexivity | apply (gfmul_by_public_byte_field a x Ha)].
  - intros r [E _]. exact E.
Qed.

Lemma gfmul_by_public_byte_total_witness :
  wf (mkU128 5 7) /\
  exists! r, gfmul_by_public_byte (mkU128 5 7) (mkU128 (2 ^ 40 + 3) 99) = r /\ wf r.
Proof.
  refine (conj _ (gfmul_by_public_byte_total (mkU128 5 7) (mkU128 (2 ^ 40 + 3) 99) _));
    unfold wf, is_word; simpl; lia.
Defined.

(** C10: the gadget reads only the low byte of [x.lo]: operands agreeing
    there give the same result, whatever [x.hi] and the upper bits of
    [x.lo], and that result is [a * (x.lo mod 256)]. *)
Theorem gfmul_by_public_byte_low_byte_only (a x x' : U128) :
  wf a -> lo x mod 256 = lo x' mod 256 ->
  gfmul_by_public_byte a x = gfmul_by_public_byte a x' /\
  to128 (gfmul_by_public_byte a x) = gf_mul (to128 a) (lo x mod 256).
Proof.
  intros Ha E. split.
  - unfold gfmul_by_public_byte. rewrite !extract_byte_mod, E. reflexivity.
  - destruct (gfmul_by_public_byte_field a x Ha) as [_ Hv].
    rewrite Hv, extract_byte_mod. reflexivity.
Qed.

Lemma gfmul_by_public_byte_low_byte_only_witness :
  wf (mkU128 5 7) /\ (2 ^ 60 + 17) mod 256 = 17 mod 256 /\
  gfmul_by_public_byte (mkU128 5 7) (mkU128 (2 ^ 60 + 17) 42)
  = gfmul_by_public_byte (mkU128 5 7) (mkU128 17 0) /\
  to128 (gfmul_by_public_byte (mkU128 5 7) (mkU128 (2 ^ 60 + 17) 42))
  = gf_mul (to128 (mkU128 5 7)) (lo (mkU128 (2 ^ 60 + 17) 42) mod 256).
Proof.
  refine (conj _ (conj _ (gfmul_by_public_byte_low_byte_only
                            (mkU128 5 7) (mkU128 (2 ^ 60 + 17) 42) (mkU128 17 0) _ _)));
    [unfold wf, is_word; simpl; lia | vm_compute; reflexivity
    |unfold wf, is_word; simpl; lia | vm_compute; reflexivity].
Defined.

(** ** Further properties of the gadgets and of the matrix-hash check *)

Lemma gf_reduce_shift1 (z : Z) :
  0 <= z < 2 ^ 128 ->
  gf_reduce (Z.shiftl z 1) = Z.lxor (Z.shiftl z 1) (if Z.testbit z 127 then ghash_poly else 0).
Proof.
  intros Hz. unfold gf_reduce. rewrite (reduce_from_noop 128 1).
  - cbn [reduce_from]. change (Z.of_nat 0) with 0. rewrite Z.shiftl_0_r, Z.add_0_r.
    rewrite Z.shiftl_spec by lia. cbn -[Z.testbit].
    destruct (Z.testbit z 127); [reflexivity | symmetry; apply Z.lxor_0_r].
  - lia.
  - intros i Hi. rewrite Z.shiftl_spec by lia. apply (testbit_bounded 128); [exact Hz | lia].
Qed.

Lemma gf_mul_0_r (a : Z) : gf_mul a 0 = 0.
Proof.
  unfold gf_mul. rewrite clmul_clmul_terms, clmul_terms_zero; [apply gf_reduce_0 |].
  intros i _. apply Z.bits_0.
Qed.

Lemma gf_mul_1_r (a : Z) : in_field a -> gf_mul a 1 = a.
Proof.
  intros Ha. unfold gf_mul. rewrite clmul_byte by (unfold is_byte; lia).
  cbn [clmul_terms fold_right seq]. cbn -[Z.shiftl Z.lxor gf_reduce].
  rewrite !Z.lxor_0_r, Z.shiftl_0_r. apply gf_reduce_small. exact Ha.
Qed.

Lemma clmul_terms_lxor_r (a b1 b2 : Z) (l : list nat) :
  clmul_terms a (Z.lxor b1 b2) l = Z.lxor (clmul_terms a b1 l) (clmul_terms a b2 l).
Proof.
  induction l as [| i l IH]; [reflexivity |].
  cbn [clmul_terms fold_right]. fold (clmul_terms a (Z.lxor b1 b2) l).
  fold (clmul_terms a b1 l). fold (clmul_terms a b2 l). rewrite IH, Z.lxor_spec.
  destruct (Z.testbit b1 (Z.of_nat i)), (Z.testbit b2 (Z.of_nat i)); cbn [xorb]; xor_bits.
Qed.

Lemma gf_mul_lxor_r (a b1 b2 : Z) :
  gf_mul a (Z.lxor b1 b2) = Z.lxor (gf_mul a b1) (gf_mul a b2).
Proof.
  unfold gf_mul. rewrite !clmul_clmul_terms, clmul_terms_lxor_r. apply gf_reduce_lxor.
Qed.

Lemma extract_byte_lxor (l1 l2 : Z) :
  extract_byte (Z.lxor l1 l2) 0 = Z.lxor (extract_byte l1 0) (extract_byte l2 0).
Proof.
  unfold extract_byte. rewrite Z.mul_0_r, !Z.shiftr_0_r.
  apply Z.bits_inj'. intros i Hi. rewrite !Z.lxor_spec, !Z.land_spec, Z.lxor_spec.
  destruct (Z.testbit 255 i); btauto.
Qed.

Lemma wf_zero : wf (mkU128 0 0).
Proof. unfold wf, is_word. cbn [lo hi]. lia. Qed.

Lemma wf_iter_mul_x (k : nat) (a : U128) : wf a -> wf (Nat.iter k mul_x a).
Proof.
  intros Ha. induction k as [| k IH]; [exact Ha |]. rewrite Nat.iter_succ. apply wf_mul_x. exact IH.
Qed.

Lemma to128_iter_mul_x (k : nat) (a : U128) :
  wf a -> (k <= 128)%nat ->
  to128 (Nat.iter k mul_x a) = gf_reduce (Z.shiftl (to128 a) (Z.of_nat k)).
Proof.
  intros Ha. induction k as [| k IH]; intros Hk.
  - cbn [Nat.iter]. rewrite Z.shiftl_0_r, gf_reduce_small; [reflexivity |].
    apply to128_bound. exact Ha.
  - rewrite Nat.iter_succ, mul_x_field by (apply wf_iter_mul_x; exact Ha).
    rewrite IH by lia. apply gf_reduce_shift_step; [apply to128_bound; exact Ha | lia].
Qed.

Lemma clmul_terms_pow2 (a : Z) (k : nat) :
  (k < 8)%nat -> clmul_terms a (2 ^ Z.of_nat k) (seq 0 8) = Z.shiftl a (Z.of_nat k).
Proof.
  intros Hk.
  do 8 (destruct k as [| k];
        [cbn [clmul_terms fold_right seq]; cbn -[Z.shiftl Z.lxor];
         rewrite ?Z.lxor_0_l, ?Z.lxor_0_r; reflexivity |]).
  lia.
Qed.

Lemma Forall2_nth_rel {X Y : Type} (R : X -> Y -> Prop) (l1 : list X) (l2 : list Y)
      (i : nat) (d1 : X) (d2 : Y) :
  Forall2 R l1 l2 -> (i < length l1)%nat -> R (nth i l1 d1) (nth i l2 d2).
Proof.
  intros HF. revert i. induction HF as [| x y l1 l2 Hxy HF IH]; intros i Hi; cbn in Hi; [lia |].
  destruct i as [| i]; [exact Hxy |]. cbn [nth]. apply IH. lia.
Qed.

Lemma length_host_H (A : list (list Z)) (bytes : list Z) : length (host_H A bytes) = length A.
Proof. apply length_map. Qed.

Lemma host_row_nil (row : list Z) : host_row row [] = 0.
Proof. destruct row; reflexivity. Qed.



(** [split128] loses nothing on a field element: recombining its two limbs
    as [lo | hi << 64] gives the value back, and both limbs are words. *)
Theorem split128_roundtrip (v : Z) :
  in_field v -> Z.lor (fst (split128 v)) (Z.shiftl (snd (split128 v)) 64) = v
                /\ wf (fill128 v).
Proof.
  intros Hv. split; [apply (to128_fill128 v Hv) | apply wf_fill128].
Qed.

Lemma split128_roundtrip_witness :
  in_field (2 ^ 100 + 7) /\
  Z.lor (fst (split128 (2 ^ 100 + 7))) (Z.shiftl (snd (split128 (2 ^ 100 + 7))) 64) = 2 ^ 100 + 7
  /\ wf (fill128 (2 ^ 100 + 7)).
Proof.
  refine (conj _ (split128_roundtrip (2 ^ 100 + 7) _)); unfold in_field; lia.
Defined.

(** Conversely, [split128] of the value assembled from two words returns
    exactly those two words as [(lo, hi)]. *)
Theorem split128_limbs_roundtrip (l h : Z) :
  is_word l -> is_word h -> split128 (Z.lor l (Z.shiftl h 64)) = (l, h).
Proof.
  intros Hl Hh. pose proof (fill128_to128 (mkU128 l h) (conj Hl Hh)) as E.
  unfold fill128, to128 in E. cbn [lo hi] in E.
  destruct (split128 (Z.lor l (Z.shiftl h 64))) as [p q].
  cbn [fst snd] in E. injection E as -> ->. reflexivity.
Qed.

Lemma split128_limbs_roundtrip_witness :
  is_word 5 /\ is_word (2 ^ 63) /\ split128 (Z.lor 5 (Z.shiftl (2 ^ 63) 64)) = (5, 2 ^ 63).
Proof.
  refine (conj _ (conj _ (split128_limbs_roundtrip 5 (2 ^ 63) _ _))); unfold is_word; lia.
Defined.

(** Limb-wise [u128_xor] is a group law on wire pairs: associative,
    commutative, with the zero pair as identity and every pair its own
    inverse. *)
Theorem u128_xor_group (a b c : U128) :
  u128_xor a (u128_xor b c) = u128_xor (u128_xor a b) c /\
  u128_xor a b = u128_xor b a /\
  u128_xor a (mkU128 0 0) = a /\
  u128_xor a a = mkU128 0 0.
Proof.
  destruct a as [al ah], b as [bl bh], c as [cl ch]. unfold u128_xor, bxor. cbn [lo hi].
  rewrite !Z.lxor_assoc, (Z.lxor_comm al bl), (Z.lxor_comm ah bh), !Z.lxor_0_r, !Z.lxor_nilpotent.
  repeat split.
Qed.

(** Two [cxor]s of the same [x] under the same condition cancel: the
    accumulator comes back unchanged whatever the condition. *)
Theorem cxor_twice_cancels (acc x : U128) (c : Z) :
  wf x -> cxor (cxor acc x c) x c = acc.
Proof.
  intros Hx. rewrite !cxor_spec by exact Hx.
  destruct (Z.testbit c 63); [| reflexivity].
  destruct acc as [al ah], x as [xl xh]. unfold u128_xor, bxor. cbn [lo hi].
  rewrite !Z.lxor_assoc, !Z.lxor_nilpotent, !Z.lxor_0_r. reflexivity.
Qed.

Lemma cxor_twice_cancels_witness :
  wf (mkU128 9 4) /\
  cxor (cxor (mkU128 1 2) (mkU128 9 4) (2 ^ 63)) (mkU128 9 4) (2 ^ 63) = mkU128 1 2.
Proof.
  refine (conj _ (cxor_twice_cancels (mkU128 1 2) (mkU128 9 4) (2 ^ 63) _));
    unfold wf, is_word; simpl; lia.
Defined.

(** [mul_x] is linear over GF(2): it commutes with limb-wise XOR. *)
Theorem mul_x_linear (a c : U128) :
  wf a -> wf c -> mul_x (u128_xor a c) = u128_xor (mul_x a) (mul_x c).
Proof.
  intros Ha Hc. pose proof (wf_mul_x a Ha). pose proof (wf_mul_x c Hc).
  apply to128_inj; [apply wf_mul_x, wf_u128_xor; assumption | apply wf_u128_xor; assumption |].
  rewrite mul_x_field by (apply wf_u128_xor; assumption).
  rewrite !to128_u128_xor, !mul_x_field by assumption.
  rewrite Z.shiftl_lxor. apply gf_reduce_lxor.
Qed.

Lemma mul_x_linear_witness :
  wf (mkU128 3 (2 ^ 63)) /\ wf (mkU128 1 5) /\
  mul_x (u128_xor (mkU128 3 (2 ^ 63)) (mkU128 1 5))
  = u128_xor (mul_x (mkU128 3 (2 ^ 63))) (mul_x (mkU128 1 5)).
Proof.
  refine (conj _ (conj _ (mul_x_linear (mkU128 3 (2 ^ 63)) (mkU128 1 5) _ _)));
    unfold wf, is_word; simpl; lia.
Defined.

(** [mul_x] loses no information: distinct well-formed pairs have distinct
    images (the carried-out top bit is recorded by the [0x87] fold-back). *)
Theorem mul_x_injective (a c : U128) :
  wf a -> wf c -> mul_x a = mul_x c -> a = c.
Proof.
  intros Ha Hc E. apply to128_inj; [assumption | assumption |].
  set (z := Z.lxor (to128 a) (to128 c)).
  assert (Hz : in_field z).
  { unfold z. rewrite <- to128_u128_xor by assumption. apply to128_bound, wf_u128_xor; assumption. }
  assert (E0 : gf_reduce (Z.shiftl z 1) = 0).
  { unfold z. rewrite Z.shiftl_lxor, gf_reduce_lxor, <- !mul_x_field by assumption.
    rewrite E. apply Z.lxor_nilpotent. }
  rewrite gf_reduce_shift1 in E0 by exact Hz.
  destruct (Z.testbit z 127) eqn:Hb.
  - exfalso. apply (f_equal (fun w => Z.testbit w 0)) in E0.
    rewrite Z.lxor_spec, Z.shiftl_spec, Z.testbit_neg_r, testbit_ghash_poly_low in E0 by lia.
    discriminate E0.
  - rewrite Z.lxor_0_r, Z.shiftl_mul_pow2 in E0 by lia.
    assert (z = 0) as Hz0 by lia. unfold z in Hz0. apply Z.lxor_eq_0_iff. exact Hz0.
Qed.

Lemma mul_x_injective_witness :
  wf (mkU128 3 (2 ^ 63)) /\ wf (mkU128 3 (2 ^ 63)) /\
  mul_x (mkU128 3 (2 ^ 63)) = mul_x (mkU128 3 (2 ^ 63)) /\
  mkU128 3 (2 ^ 63) = mkU128 3 (2 ^ 63).
Proof.
  refine (conj _ (conj _ (conj eq_refl
    (mul_x_injective (mkU128 3 (2 ^ 63)) (mkU128 3 (2 ^ 63)) _ _ eq_refl))));
    unfold wf, is_word; simpl; lia.
Defined.

(** Edge bytes of the gadget: byte 0 gives the zero pair and byte 1 gives
    [a] back unchanged. *)
Theorem gfmul_by_public_byte_zero_one (a : U128) :
  wf a ->
  gfmul_by_public_byte a (mkU128 0 0) = mkU128 0 0 /\
  gfmul_by_public_byte a (mkU128 1 0) = a.
Proof.
  intros Ha. split.
  - destruct (gfmul_by_public_byte_field a (mkU128 0 0) Ha) as [Hw Hv].
    apply to128_inj; [exact Hw | exact wf_zero |]. rewrite Hv.
    cbn [lo]. rewrite extract_byte_mod. apply gf_mul_0_r.
  - destruct (gfmul_by_public_byte_field a (mkU128 1 0) Ha) as [Hw Hv].
    apply to128_inj; [exact Hw | exact Ha |]. rewrite Hv.
    cbn [lo]. rewrite extract_byte_mod. apply gf_mul_1_r, to128_bound. exact Ha.
Qed.

Lemma gfmul_by_public_byte_zero_one_witness :
  wf (mkU128 5 (2 ^ 63)) /\
  gfmul_by_public_byte (mkU128 5 (2 ^ 63)) (mkU128 0 0) = mkU128 0 0 /\
  gfmul_by_public_byte (mkU128 5 (2 ^ 63)) (mkU128 1 0) = mkU128 5 (2 ^ 63).
Proof.
  refine (conj _ (gfmul_by_public_byte_zero_one (mkU128 5 (2 ^ 63)) _));
    unfold wf, is_word; simpl; lia.
Defined.

(** The gadget is linear in its public operand: the byte [l1 ^ l2] gives
    the XOR of the results for [l1] and [l2]; the high limbs play no part. *)
Theorem gfmul_by_public_byte_linear_in_byte (a : U128) (l1 l2 h1 h2 h : Z) :
  wf a ->
  gfmul_by_public_byte a (mkU128 (Z.lxor l1 l2) h)
  = u128_xor (gfmul_by_public_byte a (mkU128 l1 h1)) (gfmul_by_public_byte a (mkU128 l2 h2)).
Proof.
  intros Ha.
  destruct (gfmul_by_public_byte_field a (mkU128 (Z.lxor l1 l2) h) Ha) as [Hw Hv].
  destruct (gfmul_by_public_byte_field a (mkU128 l1 h1) Ha) as [Hw1 Hv1].
  destruct (gfmul_by_public_byte_field a (mkU128 l2 h2) Ha) as [Hw2 Hv2].
  apply to128_inj; [exact Hw | apply wf_u128_xor; assumption |].
  rewrite to128_u128_xor, Hv, Hv1, Hv2 by assumption. cbn [lo].
  rewrite extract_byte_lxor. apply gf_mul_lxor_r.
Qed.

Lemma gfmul_by_public_byte_linear_in_byte_witness :
  wf (mkU128 5 (2 ^ 63)) /\
  gfmul_by_public_byte (mkU128 5 (2 ^ 63)) (mkU128 (Z.lxor 200 77) 0)
  = u128_xor (gfmul_by_public_byte (mkU128 5 (2 ^ 63)) (mkU128 200 1))
             (gfmul_by_public_byte (mkU128 5 (2 ^ 63)) (mkU128 77 9)).
Proof.
  refine (conj _ (gfmul_by_public_byte_linear_in_byte (mkU128 5 (2 ^ 63)) 200 77 1 9 0 _));
    unfold wf, is_word; simpl; lia.
Defined.

(** For the byte [2^k] the gadget's result is [a] multiplied by [x]
    [k] times with [mul_x]. *)
Theorem gfmul_by_public_byte_pow2 (a : U128) (k : nat) :
  wf a -> (k < 8)%nat ->
  gfmul_by_public_byte a (mkU128 (2 ^ Z.of_nat k) 0) = Nat.iter k mul_x a.
Proof.
  intros Ha Hk.
  destruct (gfmul_by_public_byte_field a (mkU128 (2 ^ Z.of_nat k) 0) Ha) as [Hw Hv].
  apply to128_inj; [exact Hw | apply wf_iter_mul_x; exact Ha |].
  rewrite Hv, to128_iter_mul_x by (auto; lia). cbn [lo].
  assert (Hb : is_byte (2 ^ Z.of_nat k)).
  { unfold is_byte. split; [lia |]. change 256 with (2 ^ 8). apply Z.pow_lt_mono_r; lia. }
  rewrite extract_byte_mod, Z.mod_small by exact Hb.
  unfold gf_mul. rewrite clmul_byte, clmul_terms_pow2 by assumption. reflexivity.
Qed.

Lemma gfmul_by_public_byte_pow2_witness :
  wf (mkU128 5 (2 ^ 63)) /\ (3 < 8)%nat /\
  gfmul_by_public_byte (mkU128 5 (2 ^ 63)) (mkU128 (2 ^ Z.of_nat 3) 0)
  = Nat.iter 3 mul_x (mkU128 5 (2 ^ 63)).
Proof.
  refine (conj _ (conj _ (gfmul_by_public_byte_pow2 (mkU128 5 (2 ^ 63)) 3 _ _)));
    unfold wf, is_word; simpl; lia.
Defined.



(** With an empty message every row sum is zero, so the check passes
    exactly when both limbs of every [H[i]] are zero. *)
Theorem lattice_check_empty_message (A : list (list Z)) (H : list Z) :
  length H = length A -> Forall (Forall in_field) A ->
  lattice_check A [] H = true <-> Forall (fun h => split128 h = (0, 0)) H.
Proof.
  intros Hlen HA. rewrite lattice_check_iff by (auto using Forall_nil).
  unfold host_H. clear HA. revert A Hlen.
  induction H as [| h H IH]; intros A Hlen; destruct A as [| row A]; cbn in Hlen; try lia.
  - split; constructor.
  - cbn [map]. rewrite host_row_nil. split.
    + intros HF. inversion HF; subst. constructor; [assumption |]. apply (IH A); [lia | assumption].
    + intros HF. inversion HF; subst. constructor; [assumption |]. apply (IH A); [lia | assumption].
Qed.

Lemma lattice_check_empty_message_witness :
  length [0; 2 ^ 128] = length [[5]; [7; 9]] /\ Forall (Forall in_field) [[5]; [7; 9]] /\
  (lattice_check [[5]; [7; 9]] [] [0; 2 ^ 128] = true <->
   Forall (fun h => split128 h = (0, 0)) [0; 2 ^ 128]).
Proof.
  assert (HA : Forall (Forall in_field) [[5]; [7; 9]]).
  { repeat apply Forall_cons; try apply Forall_nil; unfold in_field; lia. }
  exact (conj eq_refl (conj HA (lattice_check_empty_message [[5]; [7; 9]] [0; 2 ^ 128] eq_refl HA))).
Defined.

(** Flipping any single bit [t < 128] of any one [H[i]] of the honest
    hash makes the check fail, whatever the other entries are. *)
Theorem lattice_check_rejects_flipped_bit (A : list (list Z)) (bytes H : list Z) (i : nat) (t : Z) :
  Forall (Forall in_field) A -> Forall is_byte bytes -> length H = length A ->
  (i < length A)%nat -> 0 <= t < 128 ->
  nth i H 0 = Z.lxor (nth i (host_H A bytes) 0) (2 ^ t) ->
  lattice_check A bytes H = false.
Proof.
  intros HA Hb Hlen Hi Ht Hflip.
  destruct (lattice_check A bytes H) eqn:E; [exfalso | reflexivity].
  apply lattice_check_iff in E; [| assumption | assumption | assumption].
  pose proof (Forall2_nth_rel _ _ _ i 0 0 E ltac:(lia)) as Hrow. cbn beta in Hrow.
  apply (split128_testbit _ _ t) in Hrow; [| exact Ht].
  rewrite Hflip, Z.lxor_spec, Z.pow2_bits_true in Hrow by lia.
  destruct (Z.testbit (nth i (host_H A bytes) 0) t); discriminate Hrow.
Qed.

Lemma lattice_check_rejects_flipped_bit_witness :
  Forall (Forall in_field) [[5; 2 ^ 100]; [7; 9]] /\ Forall is_byte [3; 255] /\
  length [0; Z.lxor (nth 1 (host_H [[5; 2 ^ 100]; [7; 9]] [3; 255]) 0) (2 ^ 70)]
  = length [[5; 2 ^ 100]; [7; 9]] /\
  lattice_check [[5; 2 ^ 100]; [7; 9]] [3; 255]
    [0; Z.lxor (nth 1 (host_H [[5; 2 ^ 100]; [7; 9]] [3; 255]) 0) (2 ^ 70)] = false.
Proof.
  assert (HA : Forall (Forall in_field) [[5; 2 ^ 100]; [7; 9]]).
  { repeat apply Forall_cons; try apply Forall_nil; unfold in_field; lia. }
  assert (HB : Forall is_byte [3; 255]).
  { repeat apply Forall_cons; try apply Forall_nil; unfold is_byte; lia. }
  refine (conj HA (conj HB (conj eq_refl
    (lattice_check_rejects_flipped_bit [[5; 2 ^ 100]; [7; 9]] [3; 255]
       [0; Z.lxor (nth 1 (host_H [[5; 2 ^ 100]; [7; 9]] [3; 255]) 0) (2 ^ 70)]
       1 70 HA HB eq_refl _ _ eq_refl)))).
  - cbn. lia.
  - lia.
Defined.



(** The hash circuits allocate just enough message wires: eight bytes per
    wire cover the message, with less than one wire of slack. *)
Theorem message_wire_count_covers (size : nat) :
  (size <= 8 * message_wire_count size < size + 8)%nat.
Proof.
  unfold message_wire_count.
  pose proof (Nat.div_mod (size + 7) 8 ltac:(lia)).
  pose proof (Nat.mod_upper_bound (size + 7) 8 ltac:(lia)). lia.
Qed.
